(** * custom_C.c: the sample dynamics plugin of the planar XY example

    A shallow embedding of
    [data/model_config/models/examples/Example_planar_XY/C/custom_C.c]
    and the properties its description states about it.

    The file is straight-line C over [double*] arguments: every statement
    is [out[i] = e] where [e] reads cells of [q] and [q_dot].  The embedding
    keeps the pointers and the store, so that what a call writes, what it
    leaves alone and what happens when buffers overlap are all visible. *)

From Stdlib Require Import ZArith Lia Floats.
From stdpp Require Import base option list gmap.

Local Open Scope Z_scope.

(** ** Memory

    [double] is IEEE 754 binary64, which is what the kernel's [float] is
    (with a single NaN: payloads are not told apart).  An address counts cells of [sizeof(double)] bytes, so that [p[i]] is the
    cell [p + i].  A cell that is absent from the map is not allocated:
    reading or writing it is undefined behaviour, which the embedding
    reports as [None]. *)

Abbreviation ptr := Z.

Abbreviation mem := (gmap Z float).

(** ** Statements: state passing with failure *)

Definition run (A : Type) : Type := mem → option (A * mem).

#[global] Instance run_ret : MRet run := λ A a m, Some (a, m).

#[global] Instance run_bind : MBind run := λ A B k c m,
  match c m with
  | Some (a, m') => k a m'
  | None => None
  end.

(** [p[i]] as an rvalue. *)
Definition load (p : ptr) (i : Z) : run float := λ m,
  match m !! (p + i) with
  | Some v => Some (v, m)
  | None => None
  end.

(** [p[i] = v;] *)
Definition store (p : ptr) (i : Z) (v : float) : run unit := λ m,
  match m !! (p + i) with
  | Some _ => Some (tt, <[p + i := v]> m)
  | None => None
  end.

(** ** The entry points

    The [int] constants [2] and [3] are converted to [double] by the usual
    arithmetic conversions; each expression is evaluated in binary64, one
    rounding per operation (a multiplication and the addition that follows
    it are not fused).  The operands of an assignment are read before the
    cell is written, and the statements run in the order of the source. *)

Module Custom.

Definition customCableLengths (l q q_dot q_ddot W_e : ptr) : run unit :=
  v ← load q_dot 0; store l 0 v.

Definition customM (M q q_dot q_ddot W_e : ptr) : run unit :=
  a ← load q 0; store M 0 a;;
  b ← load q 1; store M 1 b;;
  c ← load q 2; store M 2 c.

Definition customC (C q q_dot q_ddot W_e : ptr) : run unit :=
  a ← load q 0; a' ← load q_dot 0; store C 0 (a * 2 + a')%float;;
  b ← load q 1; b' ← load q_dot 1; store C 1 (b * 2 + b')%float;;
  c ← load q 2; c' ← load q_dot 2; store C 2 (c * 2 + c')%float.

Definition customG (G q q_dot q_ddot W_e : ptr) : run unit :=
  a ← load q 0; a' ← load q_dot 0; store G 0 (a * 3 - a')%float;;
  b ← load q 1; b' ← load q_dot 1; store G 1 (b * 3 - b')%float;;
  c ← load q 2; c' ← load q_dot 2; store G 2 (c * 3 - c')%float.

Definition customL (L q q_dot q_ddot W_e : ptr) : run unit :=
  a ← load q 0; a' ← load q_dot 0; store L 0 (a * a')%float;;
  b ← load q 1; b' ← load q_dot 1; store L 1 (b * b')%float;;
  c ← load q 2; c' ← load q_dot 2; store L 2 (c * c')%float.

(** [void mexFunction(int nlhs, mxArray *plhs[], int nrhs,
    const mxArray *prhs[]) { }] *)
Definition mexFunction (nlhs : Z) (plhs : ptr) (nrhs : Z) (prhs : ptr)
  : run unit := mret tt.

End Custom.

Import Custom.

(** The five dynamics entry points share one signature, so a property of
    "every entry point" is stated once, over this enumeration.  [out_len] is
    the number of cells of its output buffer that an entry point assigns. *)

Inductive entry : Type :=
  | CableLengths | MassInertia | Coriolis | Gravity | Jacobian.

Definition call (e : entry) : ptr → ptr → ptr → ptr → ptr → run unit :=
  match e with
  | CableLengths => customCableLengths
  | MassInertia => customM
  | Coriolis => customC
  | Gravity => customG
  | Jacobian => customL
  end.

Definition out_len (e : entry) : Z :=
  match e with
  | CableLengths => 1
  | _ => 3
  end.

(** ** Buffers and footprints *)

(** The [n] cells from [p] on, when all of them are allocated. *)
Fixpoint read_vec (m : mem) (p : ptr) (n : nat) : option (list float) :=
  match n with
  | O => Some []
  | S n' =>
      match m !! p, read_vec m (p + 1) n' with
      | Some v, Some vs => Some (v :: vs)
      | _, _ => None
      end
  end.

Definition allocated (m : mem) (p : ptr) (n : nat) : Prop :=
  is_Some (read_vec m p n).

(** The address [x] lies in the [n] cells from [p] on. *)
Definition in_buf (p : ptr) (n : Z) (x : Z) : Prop := p ≤ x < p + n.

(** Two buffers that share no cell. *)
Definition separate (p : ptr) (n : Z) (p' : ptr) (n' : Z) : Prop :=
  p + n ≤ p' ∨ p' + n' ≤ p.

(** Two memories with the same contents on a set of addresses. *)
Definition agree (S : Z → Prop) (m1 m2 : mem) : Prop :=
  ∀ x, S x → m1 !! x = m2 !! x.

(** A statement that assigns no cell outside [W]. *)
Definition modifies (W : Z → Prop) {A} (c : run A) : Prop :=
  ∀ m a m', c m = Some (a, m') → ∀ x, ¬ W x → m' !! x = m !! x.

(** Two statements that, run from memories related by [P], return the same
    value and leave memories related by [Q]. *)
Definition rel {A} (P : mem → mem → Prop) (c1 c2 : run A)
    (Q : mem → mem → Prop) : Prop :=
  ∀ m1 m2 a1 m1' a2 m2',
    P m1 m2 → c1 m1 = Some (a1, m1') → c2 m2 = Some (a2, m2') →
    a1 = a2 ∧ Q m1' m2'.

(** A statement that returns whenever the cells in [D] are allocated, and
    leaves them allocated. *)
Definition total (D : Z → Prop) {A} (c : run A) : Prop :=
  ∀ m, (∀ x, D x → is_Some (m !! x)) →
       ∃ a m', c m = Some (a, m') ∧ ∀ x, D x → is_Some (m' !! x).

(** The memory a statement leaves (the memory it started from, when it
    fails). *)
Definition result (c : run unit) (m : mem) : mem :=
  match c m with
  | Some (_, m') => m'
  | None => m
  end.

(** A memory for the examples: [q = [1,2,3]] at 0, [q_dot = [4,5,6]] at 10,
    [q_ddot] at 30, [W_e] at 40, and a four-cell output buffer at 20. *)
Definition ex_mem : mem :=
  list_to_map
    [(0, 1%float); (1, 2%float); (2, 3%float);
     (10, 4%float); (11, 5%float); (12, 6%float);
     (20, 70%float); (21, 71%float); (22, 72%float); (23, 73%float);
     (30, 8%float); (31, 8%float); (32, 8%float);
     (40, 9%float); (41, 9%float); (42, 9%float)].

(** The same, with other accelerations and another wrench, elsewhere, and
    other leftovers in the output buffer. *)
Definition ex_mem' : mem :=
  list_to_map
    [(0, 1%float); (1, 2%float); (2, 3%float);
     (10, 4%float); (11, 5%float); (12, 6%float);
     (20, 0%float); (21, 0%float); (22, 0%float); (23, 0%float);
     (50, 1%float); (51, 2%float); (52, 3%float);
     (60, 4%float); (61, 5%float); (62, 6%float)].

(** [q = [1,2,3]] at 0 and an output buffer at 1 that shares cells 1 and 2
    with it. *)
Definition ex_overlap : mem :=
  list_to_map [(0, 1%float); (1, 2%float); (2, 3%float); (3, 9%float)].

(** ** What a call needs and what it computes *)

(** The cells an entry point reads. *)
Definition reads (e : entry) (q q_dot : ptr) (x : Z) : Prop :=
  match e with
  | CableLengths => x = q_dot + 0
  | MassInertia => in_buf q 3 x
  | _ => in_buf q 3 x ∨ in_buf q_dot 3 x
  end.

(** The cells an entry point reads or assigns. *)
Definition footprint (e : entry) (out q q_dot : ptr) (x : Z) : Prop :=
  reads e q q_dot x ∨ in_buf out (out_len e) x.

(** The value that statement [i] of an entry point computes when its operands
    are read from [m]. *)
Definition elem (e : entry) (m : mem) (q q_dot : ptr) (i : Z)
  : option float :=
  match e with
  | CableLengths => m !! (q_dot + i)
  | MassInertia => m !! (q + i)
  | Coriolis =>
      match m !! (q + i), m !! (q_dot + i) with
      | Some a, Some d => Some (a * 2 + d)%float
      | _, _ => None
      end
  | Gravity =>
      match m !! (q + i), m !! (q_dot + i) with
      | Some a, Some d => Some (a * 3 - d)%float
      | _, _ => None
      end
  | Jacobian =>
      match m !! (q + i), m !! (q_dot + i) with
      | Some a, Some d => Some (a * d)%float
      | _, _ => None
      end
  end.

(** The output starts one or two cells after [p]: an assignment to an
    earlier output cell lands on a cell of [p] that a later statement
    reads. *)
Definition trails (out p : ptr) : Prop := out = p + 1 ∨ out = p + 2.

Definition hazard (e : entry) (out q q_dot : ptr) : Prop :=
  match e with
  | CableLengths => False
  | MassInertia => trails out q
  | _ => trails out q ∨ trails out q_dot
  end.

(** A statement that returns only when the cells in [D] are allocated, and
    then allocates and frees nothing. *)
Definition safe (D : Z → Prop) {A} (c : run A) : Prop :=
  ∀ m a m', c m = Some (a, m') →
    (∀ x, D x → is_Some (m !! x)) ∧
    (∀ x, is_Some (m' !! x) ↔ is_Some (m !! x)).

(** ** binary64 multiplication commutes

    The description writes [2*q[i]] where the code has [q[i]*2]. *)

Lemma SFmul_comm prec emax (x y : spec_float) :
  SFmul prec emax x y = SFmul prec emax y x.
Proof.
  destruct x as [sx|sx| |sx mx ex], y as [sy|sy| |sy my ey]; cbn;
    rewrite ?(Bool.xorb_comm sx sy); try reflexivity.
  by rewrite (Pos.mul_comm mx my), (Z.add_comm ex ey).
Qed.

Lemma double_mul_comm (x y : float) : (x * y = y * x)%float.
Proof. apply Prim2SF_inj. rewrite !mul_spec. apply SFmul_comm. Qed.

(** ** Running statements *)

Lemma bind_Some {A B} (c : run A) (k : A → run B) m r :
  (c ≫= k) m = Some r ↔ ∃ a m1, c m = Some (a, m1) ∧ k a m1 = Some r.
Proof.
  unfold mbind, run_bind. split.
  - destruct (c m) as [[a m1]|]; [eauto|discriminate].
  - by intros (a & m1 & -> & ?).
Qed.

Lemma load_Some p i m v m' :
  load p i m = Some (v, m') ↔ m !! (p + i) = Some v ∧ m' = m.
Proof.
  unfold load. destruct (m !! (p + i)); split; intros H;
    try (destruct H; congruence); try discriminate.
  by inversion H.
Qed.

Lemma store_Some p i v m u m' :
  store p i v m = Some (u, m') ↔
  is_Some (m !! (p + i)) ∧ m' = <[p + i := v]> m.
Proof.
  unfold store. destruct (m !! (p + i)) eqn:E; split; intros H.
  - inversion H. eauto.
  - destruct H as [_ ->]. by destruct u.
  - discriminate.
  - destruct H as [[? ?] _]. discriminate.
Qed.

Lemma load_bind {B} p i (k : float → run B) m v :
  m !! (p + i) = Some v → (load p i ≫= k) m = k v m.
Proof. intros H. unfold mbind, run_bind, load. by rewrite H. Qed.

Lemma store_bind {B} p i v (k : unit → run B) m :
  is_Some (m !! (p + i)) → (store p i v ≫= k) m = k tt (<[p + i := v]> m).
Proof. intros [w H]. unfold mbind, run_bind, store. by rewrite H. Qed.

Lemma store_run p i v m :
  is_Some (m !! (p + i)) → store p i v m = Some (tt, <[p + i := v]> m).
Proof. intros [w H]. unfold store. by rewrite H. Qed.

(** ** Reading buffers *)

Lemma read_vec_ext m1 m2 p n :
  agree (in_buf p (Z.of_nat n)) m1 m2 → read_vec m1 p n = read_vec m2 p n.
Proof.
  revert p. induction n as [|n IH]; intros p H; [done|].
  cbn [read_vec]. rewrite (H p) by (unfold in_buf; lia).
  rewrite (IH (p + 1)); [done|].
  intros x Hx. apply H. unfold in_buf in *. lia.
Qed.

Lemma read_vec_lookup m p n l :
  read_vec m p n = Some l →
  ∀ i : nat, (i < n)%nat → m !! (p + Z.of_nat i) = l !! i.
Proof.
  revert p l. induction n as [|n IH]; intros p l H i Hi; [lia|].
  cbn [read_vec] in H.
  destruct (m !! p) as [v|] eqn:Ev; [|discriminate].
  destruct (read_vec m (p + 1) n) as [vs|] eqn:Evs; [|discriminate].
  inversion H; subst l. destruct i as [|i].
  - by rewrite Z.add_0_r.
  - rewrite lookup_cons_ne_0, Nat.pred_succ by lia.
    rewrite <- (IH _ _ Evs i) by lia. f_equal. lia.
Qed.

Lemma read_vec_3 m p a b c :
  read_vec m p 3 = Some [a; b; c] ↔
  m !! (p + 0) = Some a ∧ m !! (p + 1) = Some b ∧ m !! (p + 2) = Some c.
Proof.
  cbn [read_vec]. replace (p + 1 + 1) with (p + 2) by lia.
  rewrite Z.add_0_r. split.
  - destruct (m !! p), (m !! (p + 1)), (m !! (p + 2)); intros H;
      inversion H; done.
  - by intros (-> & -> & ->).
Qed.

Lemma allocated_lookup m p n i :
  allocated m p n → 0 ≤ i < Z.of_nat n → is_Some (m !! (p + i)).
Proof.
  intros [l H] Hi.
  pose proof (read_vec_lookup _ _ _ _ H (Z.to_nat i) ltac:(lia)) as E.
  rewrite Z2Nat.id in E by lia. rewrite E.
  apply lookup_lt_is_Some.
  assert (length l = n) as ->; [|lia].
  clear -H. revert p l H. induction n as [|n IH]; intros p l H.
  - by inversion H.
  - cbn [read_vec] in H. destruct (m !! p); [|discriminate].
    destruct (read_vec m (p + 1) n) eqn:E; [|discriminate].
    inversion H. cbn. f_equal. eauto.
Qed.

(** ** Which cells a statement assigns *)

Lemma modifies_ret W {A} (a : A) : modifies W (mret a : run A).
Proof. intros m a' m' H x _. by inversion H. Qed.

Lemma modifies_load W p i : modifies W (load p i).
Proof. intros m a m' H x _. apply load_Some in H as [_ ->]. done. Qed.

Lemma modifies_store (W : Z → Prop) p i v : W (p + i) → modifies W (store p i v).
Proof.
  intros HW m a m' H x Hx. apply store_Some in H as [_ ->].
  apply lookup_insert_ne. intros <-. done.
Qed.

Lemma modifies_bind W {A B} (c : run A) (k : A → run B) :
  modifies W c → (∀ a, modifies W (k a)) → modifies W (c ≫= k).
Proof.
  intros Hc Hk m b m' H x Hx.
  apply bind_Some in H as (a & m1 & H1 & H2).
  rewrite (Hk a _ _ _ H2 x Hx). eauto.
Qed.

Lemma call_modifies e out q q_dot q_ddot W_e :
  modifies (in_buf out (out_len e)) (call e out q q_dot q_ddot W_e).
Proof.
  destruct e; cbn [call out_len];
    unfold customCableLengths, customM, customC, customG, customL;
    repeat first
      [ apply modifies_bind; [|intros ?]
      | apply modifies_load
      | apply modifies_store; unfold in_buf; lia ].
Qed.

(** ** Running the same statement from two memories *)

Lemma rel_load (S : Z → Prop) p i :
  S (p + i) → rel (agree S) (load p i) (load p i) (agree S).
Proof.
  intros HS m1 m2 a1 m1' a2 m2' HP H1 H2.
  apply load_Some in H1 as [H1 ->], H2 as [H2 ->].
  split; [|done]. rewrite (HP _ HS) in H1. congruence.
Qed.

Lemma rel_store (S : Z → Prop) p i v :
  rel (agree S) (store p i v) (store p i v) (agree (λ x, S x ∨ x = p + i)).
Proof.
  intros m1 m2 [] m1' [] m2' HP H1 H2.
  apply store_Some in H1 as [_ ->], H2 as [_ ->].
  split; [done|]. intros x Hx.
  destruct (decide (x = p + i)) as [->|Hne].
  - by rewrite !lookup_insert_eq.
  - rewrite !lookup_insert_ne by done. apply HP. tauto.
Qed.

Lemma rel_bind {A B} P Q R (c1 c2 : run A) (k1 k2 : A → run B) :
  rel P c1 c2 Q → (∀ a, rel Q (k1 a) (k2 a) R) →
  rel P (c1 ≫= k1) (c2 ≫= k2) R.
Proof.
  intros Hc Hk m1 m2 b1 m1' b2 m2' HP H1 H2.
  apply bind_Some in H1 as (a1 & n1 & H1 & K1).
  apply bind_Some in H2 as (a2 & n2 & H2 & K2).
  destruct (Hc _ _ _ _ _ _ HP H1 H2) as [<- HQ].
  exact (Hk a1 _ _ _ _ _ _ HQ K1 K2).
Qed.

Lemma rel_post {A} (P Q Q' : mem → mem → Prop) (c1 c2 : run A) :
  rel P c1 c2 Q → (∀ m1 m2, Q m1 m2 → Q' m1 m2) → rel P c1 c2 Q'.
Proof.
  intros H HQ m1 m2 a1 m1' a2 m2' HP H1 H2.
  destruct (H _ _ _ _ _ _ HP H1 H2). eauto.
Qed.

Lemma call_rel e out q q_dot qdd1 We1 qdd2 We2 :
  rel (agree (λ x, in_buf q 3 x ∨ in_buf q_dot 3 x))
      (call e out q q_dot qdd1 We1) (call e out q q_dot qdd2 We2)
      (agree (in_buf out (out_len e))).
Proof.
  destruct e; cbn [call out_len];
    unfold customCableLengths, customM, customC, customG, customL;
    (eapply rel_post;
      [ repeat first
          [ eapply rel_bind; [|intros ?]
          | apply rel_load; cbv beta; unfold in_buf; lia
          | apply rel_store ]
      | intros m1 m2 H x Hx; apply H; unfold in_buf in *; lia ]).
Qed.

(** ** Calls on allocated buffers return *)

Lemma total_load (D : Z → Prop) p i : D (p + i) → total D (load p i).
Proof.
  intros HD m Hm. destruct (Hm _ HD) as [v Hv].
  exists v, m. split; [|done]. by apply load_Some.
Qed.

Lemma total_store (D : Z → Prop) p i v : D (p + i) → total D (store p i v).
Proof.
  intros HD m Hm. exists tt, (<[p + i := v]> m). split.
  - apply store_Some. auto.
  - intros x Hx. destruct (decide (p + i = x)) as [->|Hne].
    + rewrite lookup_insert_eq. eauto.
    + rewrite lookup_insert_ne by done. auto.
Qed.

Lemma total_bind D {A B} (c : run A) (k : A → run B) :
  total D c → (∀ a, total D (k a)) → total D (c ≫= k).
Proof.
  intros Hc Hk m Hm. destruct (Hc m Hm) as (a & m1 & H1 & Hm1).
  destruct (Hk a m1 Hm1) as (b & m2 & H2 & Hm2).
  exists b, m2. split; [|done]. apply bind_Some. eauto.
Qed.

Lemma call_total e out q q_dot q_ddot W_e :
  total (λ x, in_buf q 3 x ∨ in_buf q_dot 3 x ∨ in_buf out (out_len e) x)
        (call e out q q_dot q_ddot W_e).
Proof.
  destruct e; cbn [call out_len];
    unfold customCableLengths, customM, customC, customG, customL;
    repeat first
      [ apply total_bind; [|intros ?]
      | apply total_load; unfold in_buf; lia
      | apply total_store; unfold in_buf; lia ].
Qed.

(** Whatever the overlap between the buffers, a call on allocated buffers
    returns. *)
Lemma call_returns e out q q_dot q_ddot W_e (m : mem) :
  allocated m q 3 → allocated m q_dot 3 →
  allocated m out (Z.to_nat (out_len e)) →
  ∃ m', call e out q q_dot q_ddot W_e m = Some (tt, m').
Proof.
  intros Hq Hd Ho.
  destruct (call_total e out q q_dot q_ddot W_e m) as ([] & m' & H & _).
  - intros x [Hx|[Hx|Hx]]; unfold in_buf in Hx.
    + replace x with (q + (x - q)) by lia.
      apply (allocated_lookup _ _ 3); [done|lia].
    + replace x with (q_dot + (x - q_dot)) by lia.
      apply (allocated_lookup _ _ 3); [done|lia].
    + replace x with (out + (x - out)) by lia.
      apply (allocated_lookup _ _ (Z.to_nat (out_len e))); [done|].
      destruct e; cbn in *; lia.
  - eauto.
Qed.

(** ** Executing a call on allocated, separate buffers *)

Lemma is_Some_insert (m : mem) k v k' :
  is_Some (m !! k') → is_Some (<[k := v]> m !! k').
Proof.
  intros H. destruct (decide (k = k')) as [->|Hne].
  - rewrite lookup_insert_eq. eauto.
  - by rewrite lookup_insert_ne.
Qed.

Ltac exec :=
  repeat first
    [ erewrite load_bind
        by (rewrite ?lookup_insert_ne by (unfold separate in *; lia);
            eassumption)
    | rewrite store_bind by (repeat apply is_Some_insert; assumption)
    | rewrite store_run by (repeat apply is_Some_insert; assumption) ].

Ltac read3 :=
  apply read_vec_3; repeat split;
  rewrite ?lookup_insert_ne by lia; apply lookup_insert_eq.

Ltac cells3 Hq :=
  let H0 := fresh "H0" in
  let H1 := fresh "H1" in
  let H2 := fresh "H2" in
  apply read_vec_3 in Hq as (H0 & H1 & H2).

Ltac alloc3 HM :=
  let A0 := fresh "A0" in
  let A1 := fresh "A1" in
  let A2 := fresh "A2" in
  pose proof (allocated_lookup _ _ _ 0 HM ltac:(lia)) as A0;
  pose proof (allocated_lookup _ _ _ 1 HM ltac:(lia)) as A1;
  pose proof (allocated_lookup _ _ _ 2 HM ltac:(lia)) as A2.

Ltac agree3 :=
  let x := fresh "x" in
  let Hx := fresh "Hx" in
  intros x Hx; unfold in_buf in Hx;
  match type of Hx with
  | ?p ≤ _ < _ =>
      assert (x = p ∨ x = p + 1 ∨ x = p + 2) as [-> | [-> | ->]] by lia;
      reflexivity
  end.

(** ** The sample arithmetic *)

(** C1.  On allocated buffers where the output does not overlap [q],
    [customM] returns, and afterwards cells 0, 1 and 2 of the output hold
    what cells 0, 1 and 2 of [q] held at the call. *)
Theorem customM_output M q q_dot q_ddot W_e (m : mem) q0 q1 q2 :
  read_vec m q 3 = Some [q0; q1; q2] →
  allocated m M 3 →
  separate M 3 q 3 →
  ∃ m', customM M q q_dot q_ddot W_e m = Some (tt, m') ∧
        read_vec m' M 3 = Some [q0; q1; q2].
Proof.
  intros Hq HM Hsep. cells3 Hq. alloc3 HM.
  unfold customM. exec. eexists; split; [reflexivity|]. read3.
Qed.

(** For [q = [1,2,3]] the output prefix is [[1,2,3]]. *)
Lemma customM_output_example :
  ∃ m', customM 20 0 10 30 40 ex_mem = Some (tt, m') ∧
        read_vec m' 20 3 = Some [1; 2; 3]%float.
Proof.
  apply (customM_output 20 0 10 30 40 ex_mem 1 2 3).
  - reflexivity.
  - eexists; reflexivity.
  - unfold separate; lia.
Defined.

(** C2.  On allocated buffers where the output overlaps neither [q] nor
    [q_dot], [customC] returns, and afterwards cell [i] of the output holds
    [2*q[i] + q_dot[i]] for [i] in 0, 1, 2, computed in binary64 from the
    values the inputs held at the call. *)
Theorem customC_output C q q_dot q_ddot W_e (m : mem) q0 q1 q2 d0 d1 d2 :
  read_vec m q 3 = Some [q0; q1; q2] →
  read_vec m q_dot 3 = Some [d0; d1; d2] →
  allocated m C 3 →
  separate C 3 q 3 →
  separate C 3 q_dot 3 →
  ∃ m', customC C q q_dot q_ddot W_e m = Some (tt, m') ∧
        read_vec m' C 3 =
          Some [2 * q0 + d0; 2 * q1 + d1; 2 * q2 + d2]%float.
Proof.
  intros Hq Hd HC Hsq Hsd. cells3 Hq. cells3 Hd. alloc3 HC.
  unfold customC. exec. eexists; split; [reflexivity|].
  rewrite !(double_mul_comm 2). read3.
Qed.

(** For [q = [1,2,3]] and [q_dot = [4,5,6]] the output prefix is
    [[6,9,12]]. *)
Lemma customC_output_example :
  ∃ m', customC 20 0 10 30 40 ex_mem = Some (tt, m') ∧
        read_vec m' 20 3 = Some [6; 9; 12]%float.
Proof.
  apply (customC_output 20 0 10 30 40 ex_mem 1 2 3 4 5 6).
  - reflexivity.
  - reflexivity.
  - eexists; reflexivity.
  - unfold separate; lia.
  - unfold separate; lia.
Defined.

(** C3.  On allocated buffers where the output overlaps neither [q] nor
    [q_dot], [customG] returns, and afterwards cell [i] of the output holds
    [3*q[i] - q_dot[i]] for [i] in 0, 1, 2. *)
Theorem customG_output G q q_dot q_ddot W_e (m : mem) q0 q1 q2 d0 d1 d2 :
  read_vec m q 3 = Some [q0; q1; q2] →
  read_vec m q_dot 3 = Some [d0; d1; d2] →
  allocated m G 3 →
  separate G 3 q 3 →
  separate G 3 q_dot 3 →
  ∃ m', customG G q q_dot q_ddot W_e m = Some (tt, m') ∧
        read_vec m' G 3 =
          Some [3 * q0 - d0; 3 * q1 - d1; 3 * q2 - d2]%float.
Proof.
  intros Hq Hd HG Hsq Hsd. cells3 Hq. cells3 Hd. alloc3 HG.
  unfold customG. exec. eexists; split; [reflexivity|].
  rewrite !(double_mul_comm 3). read3.
Qed.

(** For [q = [1,2,3]] and [q_dot = [4,5,6]] the output prefix is
    [[-1,1,3]]. *)
Lemma customG_output_example :
  ∃ m', customG 20 0 10 30 40 ex_mem = Some (tt, m') ∧
        read_vec m' 20 3 = Some [-1; 1; 3]%float.
Proof.
  apply (customG_output 20 0 10 30 40 ex_mem 1 2 3 4 5 6).
  - reflexivity.
  - reflexivity.
  - eexists; reflexivity.
  - unfold separate; lia.
  - unfold separate; lia.
Defined.

(** C4.  On allocated buffers where the output overlaps neither [q] nor
    [q_dot], [customL] returns, and afterwards cell [i] of the output holds
    [q[i] * q_dot[i]] for [i] in 0, 1, 2. *)
Theorem customL_output L q q_dot q_ddot W_e (m : mem) q0 q1 q2 d0 d1 d2 :
  read_vec m q 3 = Some [q0; q1; q2] →
  read_vec m q_dot 3 = Some [d0; d1; d2] →
  allocated m L 3 →
  separate L 3 q 3 →
  separate L 3 q_dot 3 →
  ∃ m', customL L q q_dot q_ddot W_e m = Some (tt, m') ∧
        read_vec m' L 3 = Some [q0 * d0; q1 * d1; q2 * d2]%float.
Proof.
  intros Hq Hd HL Hsq Hsd. cells3 Hq. cells3 Hd. alloc3 HL.
  unfold customL. exec. eexists; split; [reflexivity|]. read3.
Qed.

(** For [q = [1,2,3]] and [q_dot = [4,5,6]] the output prefix is
    [[4,10,18]]. *)
Lemma customL_output_example :
  ∃ m', customL 20 0 10 30 40 ex_mem = Some (tt, m') ∧
        read_vec m' 20 3 = Some [4; 10; 18]%float.
Proof.
  apply (customL_output 20 0 10 30 40 ex_mem 1 2 3 4 5 6).
  - reflexivity.
  - reflexivity.
  - eexists; reflexivity.
  - unfold separate; lia.
  - unfold separate; lia.
Defined.

(** C5.  When [q_dot[0]] and [l[0]] are allocated, [customCableLengths]
    returns; afterwards [l[0]] holds what [q_dot[0]] held at the call and
    every other cell of [l] is as it was.  The buffers may overlap. *)
Theorem customCableLengths_output l q q_dot q_ddot W_e (m : mem) v :
  m !! (q_dot + 0) = Some v →
  is_Some (m !! (l + 0)) →
  ∃ m', customCableLengths l q q_dot q_ddot W_e m = Some (tt, m') ∧
        m' !! (l + 0) = Some v ∧
        ∀ i, i ≠ 0 → m' !! (l + i) = m !! (l + i).
Proof.
  intros Hv Hl. unfold customCableLengths. exec.
  eexists; split; [reflexivity|]. split.
  - apply lookup_insert_eq.
  - intros i Hi. apply lookup_insert_ne. lia.
Qed.

Lemma customCableLengths_output_example :
  ∃ m', customCableLengths 20 0 10 30 40 ex_mem = Some (tt, m') ∧
        m' !! (20 + 0) = Some 4%float ∧
        ∀ i, i ≠ 0 → m' !! (20 + i) = ex_mem !! (20 + i).
Proof.
  apply (customCableLengths_output 20 0 10 30 40 ex_mem 4).
  - reflexivity.
  - eexists; reflexivity.
Defined.

(** ** What a call leaves alone *)

(** C6.  A call of any of the five entry points changes no cell outside the
    cells of its output buffer that it assigns; so each of [q], [q_dot],
    [q_ddot] and [W_e], of whatever length, reads the same after the call as
    before it when it shares no cell with those. *)
Theorem call_frame e out q q_dot q_ddot W_e (m m' : mem) :
  call e out q q_dot q_ddot W_e m = Some (tt, m') →
  (∀ x, ¬ in_buf out (out_len e) x → m' !! x = m !! x) ∧
  (∀ p (n : nat),
     p ∈ [q; q_dot; q_ddot; W_e] →
     separate out (out_len e) p (Z.of_nat n) →
     read_vec m' p n = read_vec m p n).
Proof.
  intros H.
  pose proof (call_modifies e out q q_dot q_ddot W_e m tt m' H) as Hfr.
  split; [exact Hfr|].
  intros p n _ Hsep. apply read_vec_ext. intros x Hx. apply Hfr.
  unfold in_buf, separate in *. lia.
Qed.

Lemma call_frame_example :
  (∀ x, ¬ in_buf 20 3 x →
        result (customC 20 0 10 30 40) ex_mem !! x = ex_mem !! x) ∧
  (∀ p (n : nat),
     p ∈ [0; 10; 30; 40] →
     separate 20 3 p (Z.of_nat n) →
     read_vec (result (customC 20 0 10 30 40) ex_mem) p n =
     read_vec ex_mem p n).
Proof.
  apply (call_frame Coriolis 20 0 10 30 40 ex_mem). reflexivity.
Defined.

(** C7.  [mexFunction] returns at once with the memory it was given,
    whatever its arguments: it assigns nothing and yields no value. *)
Theorem mexFunction_noop nlhs plhs nrhs prhs (m : mem) :
  mexFunction nlhs plhs nrhs prhs m = Some (tt, m).
Proof. reflexivity. Qed.

(** C10.  A call of [customM], [customC], [customG] or [customL] changes no
    cell other than cells 0, 1 and 2 of its output buffer; in particular the
    output cells of index 3 and above are as they were. *)
Theorem sample_writes_first_three e out q q_dot q_ddot W_e (m m' : mem) :
  e ≠ CableLengths →
  call e out q q_dot q_ddot W_e m = Some (tt, m') →
  (∀ x, x ≠ out + 0 → x ≠ out + 1 → x ≠ out + 2 → m' !! x = m !! x) ∧
  (∀ i, 3 ≤ i → m' !! (out + i) = m !! (out + i)).
Proof.
  intros He H.
  pose proof (call_modifies e out q q_dot q_ddot W_e m tt m' H) as Hfr.
  assert (out_len e = 3) as Hlen by (by destruct e).
  rewrite Hlen in Hfr. unfold in_buf in Hfr.
  split; [intros x ? ? ?|intros i ?]; apply Hfr; lia.
Qed.

Lemma sample_writes_first_three_example :
  (∀ x, x ≠ 20 + 0 → x ≠ 20 + 1 → x ≠ 20 + 2 →
        result (customL 20 0 10 30 40) ex_mem !! x = ex_mem !! x) ∧
  (∀ i, 3 ≤ i →
        result (customL 20 0 10 30 40) ex_mem !! (20 + i) =
        ex_mem !! (20 + i)).
Proof.
  apply (sample_writes_first_three Jacobian 20 0 10 30 40 ex_mem).
  - discriminate.
  - reflexivity.
Defined.

(** ** What a call depends on *)

(** C8.  Take two calls of the same entry point with the same arguments, in
    any two memories (whatever earlier calls left there) in which [q] and
    [q_dot] hold the same values.  The two calls leave the same values in
    the cells of the output buffer that the entry point assigns. *)
Theorem call_deterministic e out q q_dot q_ddot W_e (m1 m2 m1' m2' : mem) :
  agree (in_buf q 3) m1 m2 →
  agree (in_buf q_dot 3) m1 m2 →
  call e out q q_dot q_ddot W_e m1 = Some (tt, m1') →
  call e out q q_dot q_ddot W_e m2 = Some (tt, m2') →
  ∀ i, 0 ≤ i < out_len e → m1' !! (out + i) = m2' !! (out + i).
Proof.
  intros Hq Hd H1 H2 i Hi.
  destruct (call_rel e out q q_dot q_ddot W_e q_ddot W_e
              m1 m2 tt m1' tt m2') as [_ Hout]; [|done|done|].
  - intros x [Hx|Hx]; auto.
  - apply Hout. unfold in_buf. lia.
Qed.

(** The second call comes after a call of [customL] that left its own
    values in the same output buffer. *)
Lemma call_deterministic_example :
  let m1' := result (customC 20 0 10 30 40) ex_mem in
  let m2' :=
    result (customC 20 0 10 30 40) (result (customL 20 0 10 30 40) ex_mem) in
  m1' !! (20 + 0) = m2' !! (20 + 0) ∧
  m1' !! (20 + 1) = m2' !! (20 + 1) ∧
  m1' !! (20 + 2) = m2' !! (20 + 2).
Proof.
  intros m1' m2'.
  assert (∀ i, 0 ≤ i < 3 → m1' !! (20 + i) = m2' !! (20 + i)) as K.
  { apply (call_deterministic Coriolis 20 0 10 30 40
             ex_mem (result (customL 20 0 10 30 40) ex_mem)).
    - agree3.
    - agree3.
    - reflexivity.
    - reflexivity. }
  repeat split; apply K; lia.
Defined.

(** C9.  Take two calls of the same entry point that are given any two
    [q_ddot] and any two [W_e], in two memories that hold the same values in
    [q] and [q_dot] and may differ anywhere else.  The two calls leave the
    same values in the cells of the output buffer that the entry point
    assigns. *)
Theorem call_ignores_q_ddot_W_e e out q q_dot qdd1 We1 qdd2 We2
    (m1 m2 m1' m2' : mem) :
  agree (in_buf q 3) m1 m2 →
  agree (in_buf q_dot 3) m1 m2 →
  call e out q q_dot qdd1 We1 m1 = Some (tt, m1') →
  call e out q q_dot qdd2 We2 m2 = Some (tt, m2') →
  ∀ i, 0 ≤ i < out_len e → m1' !! (out + i) = m2' !! (out + i).
Proof.
  intros Hq Hd H1 H2 i Hi.
  destruct (call_rel e out q q_dot qdd1 We1 qdd2 We2
              m1 m2 tt m1' tt m2') as [_ Hout]; [|done|done|].
  - intros x [Hx|Hx]; auto.
  - apply Hout. unfold in_buf. lia.
Qed.

(** The second call is given its accelerations at 50 and its wrench at 60,
    with other values, in a memory whose output buffer held other values. *)
Lemma call_ignores_q_ddot_W_e_example :
  let m1' := result (customG 20 0 10 30 40) ex_mem in
  let m2' := result (customG 20 0 10 50 60) ex_mem' in
  m1' !! (20 + 0) = m2' !! (20 + 0) ∧
  m1' !! (20 + 1) = m2' !! (20 + 1) ∧
  m1' !! (20 + 2) = m2' !! (20 + 2).
Proof.
  intros m1' m2'.
  assert (∀ i, 0 ≤ i < 3 → m1' !! (20 + i) = m2' !! (20 + i)) as K.
  { apply (call_ignores_q_ddot_W_e Gravity 20 0 10 30 40 50 60
             ex_mem ex_mem').
    - agree3.
    - agree3.
    - reflexivity.
    - reflexivity. }
  repeat split; apply K; lia.
Defined.

(** ** Overlapping buffers

    The statements run in order, so when the output buffer shares cells with
    an input a later read sees an earlier write.  With the output one cell
    after [q = [1,2,3]], [customM] leaves [[1,1,1]] in it; and [customC]
    called with [q] itself as output overwrites [q]. *)

Lemma customM_overlapping :
  read_vec ex_overlap 0 3 = Some [1; 2; 3]%float ∧
  read_vec (result (customM 1 0 10 30 40) ex_overlap) 1 3 =
    Some [1; 1; 1]%float.
Proof. split; reflexivity. Qed.

Lemma customC_in_place :
  read_vec (result (customC 0 0 10 30 40) ex_mem) 0 3 =
    Some [6; 9; 12]%float.
Proof. reflexivity. Qed.

(** ** Defined behaviour: the cells a call needs *)

Lemma safe_load p i : safe (λ x, x = p + i) (load p i).
Proof.
  intros m a m' H. apply load_Some in H as [H ->].
  split; [|done]. intros x ->. eauto.
Qed.

Lemma safe_store p i v : safe (λ x, x = p + i) (store p i v).
Proof.
  intros m a m' H. apply store_Some in H as [H ->].
  split; [by intros x ->|]. intros x.
  destruct (decide (p + i = x)) as [<-|Hne].
  - rewrite lookup_insert_eq. split; eauto.
  - by rewrite lookup_insert_ne.
Qed.

Lemma safe_bind (D1 D2 : Z → Prop) {A B} (c : run A) (k : A → run B) :
  safe D1 c → (∀ a, safe D2 (k a)) → safe (λ x, D1 x ∨ D2 x) (c ≫= k).
Proof.
  intros Hc Hk m b m' H. apply bind_Some in H as (a & m1 & H1 & H2).
  destruct (Hc _ _ _ H1) as [Hd1 He1], (Hk a _ _ _ H2) as [Hd2 He2].
  split.
  - intros x [Hx|Hx]; [auto|]. apply He1. auto.
  - intros x. rewrite He2. apply He1.
Qed.

Lemma safe_weaken (D D' : Z → Prop) {A} (c : run A) :
  safe D c → (∀ x, D' x → D x) → safe D' c.
Proof.
  intros H HD m a m' Hr. destruct (H _ _ _ Hr) as [Hd He]. split; auto.
Qed.

Lemma call_safe e out q q_dot q_ddot W_e :
  safe (footprint e out q q_dot) (call e out q q_dot q_ddot W_e).
Proof.
  destruct e; cbn [call];
    unfold customCableLengths, customM, customC, customG, customL;
    (eapply safe_weaken;
      [ repeat first
          [ eapply safe_bind; [|intros ?]
          | apply safe_load
          | apply safe_store ]
      | unfold footprint, reads, in_buf; cbn [out_len]; intros x Hx; lia ]).
Qed.

Lemma call_total_footprint e out q q_dot q_ddot W_e :
  total (footprint e out q q_dot) (call e out q q_dot q_ddot W_e).
Proof.
  destruct e; cbn [call]; unfold footprint, reads; cbn [out_len];
    unfold customCableLengths, customM, customC, customG, customL;
    repeat first
      [ apply total_bind; [|intros ?]
      | apply total_load; unfold in_buf; lia
      | apply total_store; unfold in_buf; lia ].
Qed.

Lemma call_returns_footprint e out q q_dot q_ddot W_e (m : mem) :
  (∀ x, footprint e out q q_dot x → is_Some (m !! x)) →
  ∃ m', call e out q q_dot q_ddot W_e m = Some (tt, m').
Proof.
  intros H.
  destruct (call_total_footprint e out q q_dot q_ddot W_e m H)
    as ([] & m' & Hr & _).
  eauto.
Qed.

(** X1.  A call of an entry point returns exactly when every cell it reads
    or assigns is allocated: [q_dot[0]] and [l[0]] for [customCableLengths];
    [q[0..2]] and the three output cells for [customM]; [q[0..2]],
    [q_dot[0..2]] and the three output cells for the others.  [q_ddot] and
    [W_e] may point anywhere. *)
Theorem call_defined_iff e out q q_dot q_ddot W_e (m : mem) :
  is_Some (call e out q q_dot q_ddot W_e m) ↔
  ∀ x, footprint e out q q_dot x → is_Some (m !! x).
Proof.
  split.
  - intros [[[] m'] H]. apply (call_safe _ _ _ _ _ _ _ _ _ H).
  - intros H.
    destruct (call_returns_footprint e out q q_dot q_ddot W_e m H) as [m' Hr].
    rewrite Hr. eauto.
Qed.

(** X2.  A call that returns leaves the set of allocated cells as it was. *)
Theorem call_keeps_allocation e out q q_dot q_ddot W_e (m m' : mem) :
  call e out q q_dot q_ddot W_e m = Some (tt, m') → dom m' = dom m.
Proof.
  intros H. apply set_eq. intros x. rewrite !elem_of_dom.
  apply (call_safe _ _ _ _ _ _ _ _ _ H).
Qed.

Lemma call_keeps_allocation_example :
  dom (result (customG 20 0 10 30 40) ex_mem) = dom ex_mem.
Proof.
  apply (call_keeps_allocation Gravity 20 0 10 30 40 ex_mem). reflexivity.
Defined.

(** A call that needs nothing of [q_ddot] and [W_e] runs with both
    dangling; a call whose output buffer is not allocated fails. *)
Lemma call_defined_examples :
  is_Some (customM 20 0 999 999 999 ex_mem) ∧
  customM 100 0 10 30 40 ex_mem = None ∧
  customC 20 0 999 30 40 ex_mem = None.
Proof. repeat split. eexists; reflexivity. Qed.

(** ** Overlapping buffers: when the sample values are still right *)

Ltac run_inv :=
  repeat match goal with
    | H : (_ ≫= _) _ = Some _ |- _ =>
        apply bind_Some in H as (? & ? & ? & ?)
    | H : load _ _ _ = Some _ |- _ => apply load_Some in H as [? ?]; subst
    | H : store _ _ _ _ = Some _ |- _ => apply store_Some in H as [? ?]; subst
    end.

(** X3.  Let a call return, with an output buffer that does not start one
    or two cells after an input the entry point reads.  Then each assigned
    output cell [i] holds the value of statement [i] computed from the
    inputs as they were at the call.  The output may be [q] or [q_dot]
    itself (an update in place), or overlap them from below. *)
Theorem call_output_unless_trailing e out q q_dot q_ddot W_e (m m' : mem) :
  ¬ hazard e out q q_dot →
  call e out q q_dot q_ddot W_e m = Some (tt, m') →
  ∀ i, 0 ≤ i < out_len e → m' !! (out + i) = elem e m q q_dot i.
Proof.
  intros Hz H i Hi.
  destruct e; cbn [call out_len hazard elem] in *;
    unfold customCableLengths, customM, customC, customG, customL in H;
    unfold trails in Hz; run_inv;
    repeat match goal with
      | K : <[_ := _]> _ !! _ = Some _ |- _ =>
          rewrite lookup_insert_ne in K by lia
      end;
    (assert (i = 0 ∨ i = 1 ∨ i = 2) as [-> | [-> | ->]] by lia);
    try lia;
    rewrite ?lookup_insert_ne by lia; rewrite lookup_insert_eq;
    repeat match goal with
      | K : ?m !! _ = Some _ |- _ => rewrite K; clear K
      end;
    reflexivity.
Qed.

(** [customC] with [q] itself as output: [q] becomes
    [2*q + q_dot = [6,9,12]]. *)
Lemma call_output_unless_trailing_example :
  let m' := result (customC 0 0 10 30 40) ex_mem in
  m' !! (0 + 0) = Some 6%float ∧
  m' !! (0 + 1) = Some 9%float ∧
  m' !! (0 + 2) = Some 12%float.
Proof.
  intros m'.
  assert (∀ i, 0 ≤ i < 3 →
            m' !! (0 + i) = elem Coriolis ex_mem 0 10 i) as K.
  { apply (call_output_unless_trailing Coriolis 0 0 10 30 40 ex_mem).
    - unfold hazard, trails. lia.
    - reflexivity. }
  repeat split; rewrite K by lia; reflexivity.
Defined.

(** ** How calls compose *)

Lemma agree_inputs_outside (W : Z → Prop) q q_dot (m m1 : mem) :
  (∀ x, ¬ W x → m1 !! x = m !! x) →
  (∀ x, W x → ¬ in_buf q 3 x ∧ ¬ in_buf q_dot 3 x) →
  agree (λ x, in_buf q 3 x ∨ in_buf q_dot 3 x) m m1.
Proof.
  intros Hfr HW x Hx. symmetry. apply Hfr. intros Hw.
  destruct (HW x Hw). tauto.
Qed.

Lemma call_allocated_back e out q q_dot q_ddot W_e (m1 m2 : mem) (m : mem) :
  (∀ x, is_Some (m1 !! x) ↔ is_Some (m !! x)) →
  call e out q q_dot q_ddot W_e m1 = Some (tt, m2) →
  ∃ m', call e out q q_dot q_ddot W_e m = Some (tt, m').
Proof.
  intros Hdom H. apply call_returns_footprint. intros x Hx.
  destruct (call_safe _ _ _ _ _ _ _ _ _ H) as [Hd _].
  apply Hdom. auto.
Qed.

(** X4.  A call overwrites what an earlier call left in the same output
    buffer.  If a first call (of any entry point, on any inputs) assigns no
    more output cells than a second one and its output cells are not cells
    of the second call's [q] and [q_dot], then the second call, run after
    the first, returns the same memory as when it is run alone.  In
    particular a call repeated on the same arguments changes nothing. *)
Theorem call_overwrites e1 e2 out q1 qd1 qdd1 We1 q q_dot qdd2 We2
    (m m1 m2 : mem) :
  out_len e1 ≤ out_len e2 →
  separate out (out_len e1) q 3 →
  separate out (out_len e1) q_dot 3 →
  call e1 out q1 qd1 qdd1 We1 m = Some (tt, m1) →
  call e2 out q q_dot qdd2 We2 m1 = Some (tt, m2) →
  call e2 out q q_dot qdd2 We2 m = Some (tt, m2).
Proof.
  intros Hlen Hsq Hsd H1 H2.
  pose proof (call_modifies _ _ _ _ _ _ _ _ _ H1) as Hfr1.
  pose proof (call_modifies _ _ _ _ _ _ _ _ _ H2) as Hfr2.
  destruct (call_allocated_back e2 out q q_dot qdd2 We2 m1 m2 m) as [m2' H2'];
    [apply (call_safe _ _ _ _ _ _ _ _ _ H1)|done|].
  pose proof (call_modifies _ _ _ _ _ _ _ _ _ H2') as Hfr2'.
  rewrite H2'. do 2 f_equal. apply map_eq. intros x.
  assert (in_buf out (out_len e2) x ∨ ¬ in_buf out (out_len e2) x)
    as [Hx|Hx] by (unfold in_buf; lia).
  - destruct (call_rel e2 out q q_dot qdd2 We2 qdd2 We2
                m m1 tt m2' tt m2) as [_ Hout]; [|done|done|by apply Hout].
    apply (agree_inputs_outside (in_buf out (out_len e1))); [done|].
    intros y Hy. unfold in_buf, separate in *. lia.
  - rewrite (Hfr2' x Hx), (Hfr2 x Hx). symmetry. apply Hfr1.
    unfold in_buf in *. lia.
Qed.

(** [customC] after [customL] into the same buffer is [customC] alone. *)
Lemma call_overwrites_example :
  customC 20 0 10 30 40 ex_mem =
  Some (tt, result (customC 20 0 10 30 40)
              (result (customL 20 0 10 30 40) ex_mem)).
Proof.
  apply (call_overwrites Jacobian Coriolis 20 0 10 30 40 0 10 30 40
           ex_mem (result (customL 20 0 10 30 40) ex_mem)).
  - cbn. lia.
  - unfold separate. cbn. lia.
  - unfold separate. cbn. lia.
  - reflexivity.
  - reflexivity.
Defined.

(** X5.  Two calls whose output buffers share no cell with each other, nor
    with the [q] and [q_dot] of the other call, can be run in either order:
    if one order returns, the other returns the same memory.  Each call may
    still overlap its own inputs. *)
Theorem calls_commute e1 out1 q1 qd1 qdd1 We1 e2 out2 q2 qd2 qdd2 We2
    (m m' : mem) :
  separate out1 (out_len e1) out2 (out_len e2) →
  separate out1 (out_len e1) q2 3 →
  separate out1 (out_len e1) qd2 3 →
  separate out2 (out_len e2) q1 3 →
  separate out2 (out_len e2) qd1 3 →
  (call e1 out1 q1 qd1 qdd1 We1;; call e2 out2 q2 qd2 qdd2 We2) m
    = Some (tt, m') →
  (call e2 out2 q2 qd2 qdd2 We2;; call e1 out1 q1 qd1 qdd1 We1) m
    = Some (tt, m').
Proof.
  intros Hoo H12 H12' H21 H21' H.
  apply bind_Some in H as ([] & ma & Ha & Hb). cbv beta in Hb.
  pose proof (call_modifies _ _ _ _ _ _ _ _ _ Ha) as Fa.
  pose proof (call_modifies _ _ _ _ _ _ _ _ _ Hb) as Fb.
  destruct (call_allocated_back e2 out2 q2 qd2 qdd2 We2 ma m' m) as [mb Hc];
    [apply (call_safe _ _ _ _ _ _ _ _ _ Ha)|done|].
  pose proof (call_modifies _ _ _ _ _ _ _ _ _ Hc) as Fc.
  destruct (call_allocated_back e1 out1 q1 qd1 qdd1 We1 m ma mb) as [m'' Hd];
    [|done|].
  { intros x. symmetry. apply (call_safe _ _ _ _ _ _ _ _ _ Hc). }
  pose proof (call_modifies _ _ _ _ _ _ _ _ _ Hd) as Fd.
  apply bind_Some. exists tt, mb. split; [done|]. cbv beta.
  rewrite Hd. do 2 f_equal. apply map_eq. intros x.
  assert (in_buf out1 (out_len e1) x ∨ ¬ in_buf out1 (out_len e1) x)
    as [X1|X1] by (unfold in_buf; lia);
  assert (in_buf out2 (out_len e2) x ∨ ¬ in_buf out2 (out_len e2) x)
    as [X2|X2] by (unfold in_buf; lia).
  - unfold in_buf, separate in *. lia.
  - rewrite (Fb x X2).
    destruct (call_rel e1 out1 q1 qd1 qdd1 We1 qdd1 We1
                m mb tt ma tt m'') as [_ Hout];
      [|done|done|symmetry; by apply Hout].
    apply (agree_inputs_outside (in_buf out2 (out_len e2))); [done|].
    intros y Hy. unfold in_buf, separate in *. lia.
  - rewrite (Fd x X1).
    destruct (call_rel e2 out2 q2 qd2 qdd2 We2 qdd2 We2
                m ma tt mb tt m') as [_ Hout];
      [|done|done|by apply Hout].
    apply (agree_inputs_outside (in_buf out1 (out_len e1))); [done|].
    intros y Hy. unfold in_buf, separate in *. lia.
  - by rewrite (Fd x X1), (Fc x X2), (Fb x X2), (Fa x X1).
Qed.

(** [customC] into the buffer at 20 and [customL] into the buffer at 30. *)
Lemma calls_commute_example :
  (customL 30 0 10 30 40;; customC 20 0 10 30 40) ex_mem =
  Some (tt, result (customC 20 0 10 30 40;; customL 30 0 10 30 40) ex_mem).
Proof.
  apply (calls_commute Coriolis 20 0 10 30 40 Jacobian 30 0 10 30 40 ex_mem).
  - unfold separate. cbn. lia.
  - unfold separate. cbn. lia.
  - unfold separate. cbn. lia.
  - unfold separate. cbn. lia.
  - unfold separate. cbn. lia.
  - reflexivity.
Defined.

(** ** Which inputs matter *)

(** X6.  [customM] reads [q] only: two calls given any [q_dot], [q_ddot] and
    [W_e], in memories that hold the same values in [q[0..2]] and may differ
    anywhere else, leave the same values in the three output cells. *)
Theorem customM_reads_q_only M q qd1 qdd1 We1 qd2 qdd2 We2
    (m1 m2 m1' m2' : mem) :
  agree (in_buf q 3) m1 m2 →
  customM M q qd1 qdd1 We1 m1 = Some (tt, m1') →
  customM M q qd2 qdd2 We2 m2 = Some (tt, m2') →
  ∀ i, 0 ≤ i < 3 → m1' !! (M + i) = m2' !! (M + i).
Proof.
  intros Hq H1 H2 i Hi.
  assert (rel (agree (in_buf q 3))
              (customM M q qd1 qdd1 We1) (customM M q qd2 qdd2 We2)
              (agree (in_buf M 3))) as Hrel.
  { unfold customM. eapply rel_post.
    - repeat first
        [ eapply rel_bind; [|intros ?]
        | apply rel_load; cbv beta; unfold in_buf; lia
        | apply rel_store ].
    - intros n1 n2 H x Hx. apply H. unfold in_buf in *. lia. }
  destruct (Hrel m1 m2 tt m1' tt m2' Hq H1 H2) as [_ Hout].
  apply Hout. unfold in_buf. lia.
Qed.

(** The second call has no velocity buffer at all. *)
Lemma customM_reads_q_only_example :
  let m1' := result (customM 20 0 10 30 40) ex_mem in
  let m2' := result (customM 20 0 999 999 999) ex_mem' in
  m1' !! (20 + 0) = m2' !! (20 + 0) ∧
  m1' !! (20 + 1) = m2' !! (20 + 1) ∧
  m1' !! (20 + 2) = m2' !! (20 + 2).
Proof.
  intros m1' m2'.
  assert (∀ i, 0 ≤ i < 3 → m1' !! (20 + i) = m2' !! (20 + i)) as K.
  { apply (customM_reads_q_only 20 0 10 30 40 999 999 999 ex_mem ex_mem').
    - agree3.
    - reflexivity.
    - reflexivity. }
  repeat split; apply K; lia.
Defined.

Lemma product_step_swap {B} L q q_dot i (k k' : unit → run B) (m : mem) :
  (∀ n, k tt n = k' tt n) →
  (a ← load q_dot i; a' ← load q i; store L i (a * a')%float ≫= k) m =
  (a ← load q i; a' ← load q_dot i; store L i (a * a')%float ≫= k') m.
Proof.
  intros Hk. unfold mbind, run_bind, load, store.
  destruct (m !! (q + i)) as [a|] eqn:Ea, (m !! (q_dot + i)) as [d|] eqn:Ed;
    cbv beta iota; rewrite ?Ea, ?Ed; cbv beta iota; try reflexivity.
  destruct (m !! (L + i)); [|reflexivity].
  rewrite (double_mul_comm d a). apply Hk.
Qed.

Lemma product_last_swap L q q_dot i (m : mem) :
  (a ← load q_dot i; a' ← load q i; store L i (a * a')%float) m =
  (a ← load q i; a' ← load q_dot i; store L i (a * a')%float) m.
Proof.
  unfold mbind, run_bind, load, store.
  destruct (m !! (q + i)) as [a|] eqn:Ea, (m !! (q_dot + i)) as [d|] eqn:Ed;
    cbv beta iota; rewrite ?Ea, ?Ed; cbv beta iota; try reflexivity.
  destruct (m !! (L + i)); [|reflexivity].
  by rewrite (double_mul_comm d a).
Qed.

(** X7.  [customL] treats [q] and [q_dot] alike: called with the two
    exchanged it does the same, on every memory, whether it returns or
    fails. *)
Theorem customL_symmetric L q q_dot q_ddot W_e (m : mem) :
  customL L q_dot q q_ddot W_e m = customL L q q_dot q_ddot W_e m.
Proof.
  unfold customL.
  apply product_step_swap. intros m1.
  apply product_step_swap. intros m2.
  apply product_last_swap.
Qed.

(** ** [customM] on its own input *)

(** X8.  [customM] with [q] itself as output changes nothing: on three
    allocated cells it returns the memory it was given. *)
Theorem customM_in_place q q_dot q_ddot W_e (m : mem) :
  allocated m q 3 → customM q q q_dot q_ddot W_e m = Some (tt, m).
Proof.
  intros Hq. alloc3 Hq.
  destruct A0 as [a Ha], A1 as [b Hb], A2 as [c Hc].
  assert (is_Some (m !! (q + 0))) by eauto.
  assert (is_Some (m !! (q + 1))) by eauto.
  assert (is_Some (m !! (q + 2))) by eauto.
  unfold customM. exec.
  rewrite (insert_id m (q + 0) a) by done.
  rewrite (insert_id m (q + 1) b) by done.
  by rewrite (insert_id m (q + 2) c).
Qed.

Lemma customM_in_place_example :
  customM 0 0 10 30 40 ex_mem = Some (tt, ex_mem).
Proof. apply (customM_in_place 0 10 30 40 ex_mem). eexists; reflexivity. Defined.

(** X9.  [customM] with the output one cell after [q] copies [q[0]] into
    all three output cells: each statement reads the cell the statement
    before it has just assigned. *)
Theorem customM_trailing_smears q q_dot q_ddot W_e (m m' : mem) :
  customM (q + 1) q q_dot q_ddot W_e m = Some (tt, m') →
  ∀ i, 0 ≤ i < 3 → m' !! (q + 1 + i) = m !! (q + 0).
Proof.
  intros H i Hi. unfold customM in H. run_inv.
  repeat match goal with
    | K : <[_ := _]> _ !! _ = Some _ |- _ =>
        rewrite lookup_insert in K; case_decide; [|lia]; inversion K; subst;
        clear K
    end.
  assert (i = 0 ∨ i = 1 ∨ i = 2) as [-> | [-> | ->]] by lia;
    rewrite ?lookup_insert_ne by lia; rewrite lookup_insert_eq; done.
Qed.

Lemma customM_trailing_smears_example :
  let m' := result (customM (0 + 1) 0 10 30 40) ex_overlap in
  m' !! (0 + 1 + 0) = Some 1%float ∧
  m' !! (0 + 1 + 1) = Some 1%float ∧
  m' !! (0 + 1 + 2) = Some 1%float.
Proof.
  intros m'.
  assert (∀ i, 0 ≤ i < 3 → m' !! (0 + 1 + i) = ex_overlap !! (0 + 0)) as K.
  { apply (customM_trailing_smears 0 10 30 40 ex_overlap). reflexivity. }
  repeat split; rewrite K by lia; reflexivity.
Defined.
